(** * simplon-group-generator: the pairing script [main.mjs]

    A shallow embedding of the script and the properties of its
    collision check, its pairing loop and its retry loop. *)

From Stdlib Require Import String ZArith Lia Bool Arith List Permutation.
From Equations Require Import Equations.
Import ListNotations.

Set Implicit Arguments.

(** ** JavaScript values

    The script handles strings (participants), [undefined] (a member
    destructured out of an empty array), [null] (what JSON gives back for
    [undefined]) and array objects.  An array used as a value is a
    reference: two references are the same value only when they are the
    same object. *)

Inductive value : Type :=
| VUndefined
| VNull
| VString (s : string)
| VObject (ref : nat).

(** SameValueZero, the comparison of [Array.prototype.includes]. *)
Definition sameValueZero (x y : value) : bool :=
  match x, y with
  | VUndefined, VUndefined => true
  | VNull, VNull => true
  | VString a, VString b => String.eqb a b
  | VObject a, VObject b => Nat.eqb a b
  | _, _ => false
  end.

(** [arr.includes(x)] *)
Definition includes (arr : list value) (x : value) : bool :=
  existsb (fun element => sameValueZero element x) arr.

(** [arr.every(f)] and [arr.some(f)]: on an empty array the callback is
    never called, [every] answers true and [some] answers false. *)
Definition every (f : value -> bool) (arr : list value) : bool := forallb f arr.
Definition some (A : Type) (f : A -> bool) (arr : list A) : bool := existsb f arr.

(** [Object.values] of an array: its elements, in index order. *)
Definition Object_values (A : Type) (arr : list A) : list A := arr.

(** [last_brief]: [null], or an array of arrays. *)
Definition brief : Type := option (list (list value)).

(** [hasSameGroup(group, last_brief)], lines 13-24. *)
Definition hasSameGroup (group : list value) (last_brief : brief) : bool :=
  match last_brief with
  | None => false
  | Some lb =>
      some (fun oneGroup => every (fun people => includes oneGroup people) group)
           (Object_values lb)
  end.

(** ** Array primitives used by the pairing loop *)

(** [arr.pop()]: the last element ([undefined] on an empty array) and the
    array without it. *)
Definition pop (arr : list value) : value * list value :=
  (last arr VUndefined, removelast arr).

(** [arr.splice(start, deleteCount)]: the removed elements and the array
    that is left.  A negative [start] counts from the end; both numbers
    are clamped to the array. *)
Definition splice (arr : list value) (start deleteCount : Z)
  : list value * list value :=
  let len := Z.of_nat (length arr) in
  let actualStart := if (start <? 0)%Z then Z.max (len + start) 0
                     else Z.min start len in
  let actualDeleteCount := Z.min (Z.max deleteCount 0) (len - actualStart) in
  let s := Z.to_nat actualStart in
  let d := Z.to_nat actualDeleteCount in
  (firstn d (skipn s arr), firstn s arr ++ skipn (s + d) arr).

(** ** The script's state

    [peoples] and [groups] are the two top-level [let] variables; [heap]
    holds the arrays [[leader, member]] the loop allocates, by reference;
    [calls] counts the calls to [Math.random] so far. *)

Record state : Type := mkState {
  peoples : list value;
  groups : list value;
  heap : list (list value);
  calls : nat
}.

Section Script.

(** The source of randomness: [entropy n] decides the [n]-th call of
    [Math.random].  [Math.random()] lies in [0, 1), so
    [Math.floor(Math.random() * len)] is an integer of [0, len), and 0
    when [len] is 0; every such integer is possible. *)
Variable entropy : nat -> nat.

Definition floor_random (n len : nat) : nat :=
  match len with
  | 0 => 0
  | S _ => entropy n mod len
  end.

(** One turn of the inner [while], lines 30-33. *)
Definition pair_step (st : state) : state :=
  let (leader, peoples1) := pop (peoples st) in
  let index := (Z.of_nat (floor_random (calls st) (length peoples1)) - 1)%Z in
  let (removed, peoples2) := splice peoples1 index 1 in
  let member := hd VUndefined removed in
  let ref := length (heap st) in
  {| peoples := peoples2;
     groups := groups st ++ [VObject ref];
     heap := heap st ++ [[leader; member]];
     calls := S (calls st) |}.

Lemma splice_rest_length (arr : list value) (start deleteCount : Z) :
  length (snd (splice arr start deleteCount)) <= length arr.
Proof.
  unfold splice; cbn [snd].
  rewrite length_app, length_firstn, length_skipn. lia.
Qed.

Lemma pair_step_shrinks (st : state) :
  0 < length (peoples st) ->
  length (peoples (pair_step st)) < length (peoples st).
Proof.
  intros Hpos. unfold pair_step, pop.
  destruct (splice _ _ _) as [removed rest] eqn:E. cbn [peoples].
  pose proof (splice_rest_length (removelast (peoples st))
    (Z.of_nat (floor_random (calls st) (length (removelast (peoples st)))) - 1) 1) as Hle.
  rewrite E in Hle; cbn [snd] in Hle.
  assert (length (removelast (peoples st)) < length (peoples st)).
  { destruct (peoples st) as [|x l] using rev_ind; [cbn in Hpos; lia|].
    rewrite removelast_last, length_app. cbn. lia. }
  lia.
Qed.

(** The inner [while (peoples.length > 0)], lines 29-34. *)
Equations? pairing (st : state) : state by wf (length (peoples st)) lt :=
  pairing st with lt_dec 0 (length (peoples st)) := {
    | left _ => pairing (pair_step st)
    | right _ => st }.
Proof. now apply pair_step_shrinks. Qed.

(** The [do { ... } while (hasSameGroup(groups, last_brief))], lines 28-35.
    The loop may run for ever, so the model counts passes: [None] says
    that the test was still true after [fuel] passes of the body. *)
Fixpoint retry (fuel : nat) (last_brief : brief) (st : state) : option state :=
  match fuel with
  | 0 => None
  | S fuel' =>
      let st' := pairing st in
      if hasSameGroup (groups st') last_brief
      then retry fuel' last_brief st'
      else Some st'
  end.

End Script.

(** ** The two files and the console *)

(** What [last_brief.json] holds: an array of arrays of strings, and of
    [null] where the script wrote a pair without a member. *)
Inductive jscalar : Type :=
| JNull
| JString (s : string).

Definition brief_file : Type := list (list jscalar).

(** [JSON.parse] of the state file. *)
Definition JSON_parse (file : brief_file) : list (list value) :=
  map (map (fun j => match j with JNull => VNull | JString s => VString s end)) file.

(** The elements of the array a value refers to. *)
Definition array_of (hp : list (list value)) (v : value) : list value :=
  match v with
  | VObject ref => nth ref hp []
  | _ => []
  end.

(** [JSON.stringify] of an array element: [undefined] is written as
    [null].  A pair never holds an array, [None] stands for that case. *)
Definition stringify_element (v : value) : option jscalar :=
  match v with
  | VUndefined | VNull => Some JNull
  | VString s => Some (JString s)
  | VObject _ => None
  end.

Fixpoint traverse (A B : Type) (f : A -> option B) (l : list A) : option (list B) :=
  match l with
  | [] => Some []
  | x :: l' =>
      match f x, traverse f l' with
      | Some y, Some ys => Some (y :: ys)
      | _, _ => None
      end
  end.

(** [JSON.stringify(groups)] *)
Definition JSON_stringify (hp : list (list value)) (gs : list value)
  : option brief_file :=
  traverse (fun g => match g with
                     | VObject ref =>
                         match nth_error hp ref with
                         | Some elems => traverse stringify_element elems
                         | None => None
                         end
                     | _ => None
                     end) gs.

(** What a finished run leaves: the new content of the state file and the
    groups printed on the console. *)
Record output : Type := mkOutput {
  written : brief_file;
  printed : list (list value)
}.

(** The state at line 26: [students.json] read into [peoples], [groups]
    empty. *)
Definition init (students : list string) : state :=
  {| peoples := map VString students; groups := []; heap := []; calls := 0 |}.

(** Line 4: a missing state file gives [null]. *)
Definition read_last_brief (file : option brief_file) : brief :=
  match file with
  | Some content => Some (JSON_parse content)
  | None => None
  end.

(** The pairs behind the references of [groups]. *)
Definition pairs_of (st : state) : list (list value) :=
  map (array_of (heap st)) (groups st).

(** Lines 37-38: [groups] is written to the state file and printed. *)
Definition finish (st : state) : option output :=
  match JSON_stringify (heap st) (groups st) with
  | Some content => Some {| written := content; printed := pairs_of st |}
  | None => None
  end.

(** The whole script: [None] when the retry loop has not ended after
    [fuel] passes ([finish] gives a result on every state the loop
    returns, see [candidate_finish]). *)
Definition main (entropy : nat -> nat) (fuel : nat)
  (students : list string) (file : option brief_file) : option output :=
  match retry entropy fuel (read_last_brief file) (init students) with
  | Some st => finish st
  | None => None
  end.

(** The groups a run has printed, if it has ended. *)
Definition printed_of (result : option output) : option (list (list value)) :=
  match result with
  | Some out => Some (printed out)
  | None => None
  end.

(** ** The collision rule in the specification's words

    A new grouping collides with the previous one when one of its pairs
    has both members together in some pair of the previous grouping. *)
Definition collides (new_pairs previous : list (list value)) : bool :=
  existsb (fun pair =>
    existsb (fun previous_pair =>
      forallb (fun m => includes previous_pair m) pair) previous) new_pairs.

(** The candidate grouping: the state after the first pass of the loop
    body. *)
Definition candidate (entropy : nat -> nat) (students : list string) : state :=
  pairing entropy (init students).

(** What [JSON.stringify] writes for a string, [undefined] or [null]. *)
Definition json_of (v : value) : jscalar :=
  match v with
  | VString s => JString s
  | _ => JNull
  end.

Definition is_object (v : value) : bool :=
  match v with
  | VObject _ => true
  | _ => false
  end.

(** ** The shape of a candidate grouping

    [pairs_from l ps]: the pairs [ps] can be formed, in this order, from
    the working list [l]: the leader is the last of the list, the member
    any one of the others, and a leader left alone gets [undefined]. *)
Inductive pairs_from : list value -> list (list value) -> Prop :=
| pf_done : pairs_from [] []
| pf_alone x : pairs_from [x] [[x; VUndefined]]
| pf_pair pre m post x ps :
    pairs_from (pre ++ post) ps ->
    pairs_from ((pre ++ m :: post) ++ [x]) ([x; m] :: ps).

(** A pair of two members taken from [l]. *)
Definition pair_within (l : list value) (pair : list value) : Prop :=
  exists a b, pair = [a; b] /\ In a l /\ In b l.

(** ** Notions used to state what the loop and the files do *)

(** The position [splice] resolves the script's index to, for a draw [k]
    on a working list of [len] elements: the draw 0 gives the index -1,
    the last position; a draw [k >= 1] gives the position [k - 1]. *)
Definition member_position (k len : nat) : nat :=
  match k with
  | 0 => len - 1
  | S k' => k'
  end.

(** The draw that leads to a given position. *)
Definition draw_for (pos len : nat) : nat :=
  if pos =? len - 1 then 0 else S pos.

(** What is read back for a value written in a pair. *)
Definition undefined_as_null (v : value) : value :=
  match v with
  | VUndefined => VNull
  | _ => v
  end.

(** Two arrays with the same elements, whatever their order. *)
Definition same_members (a b : list value) : Prop :=
  forall x, In x a <-> In x b.

(** A state file that holds at least one group. *)
Definition holds_a_group (file : option brief_file) : Prop :=
  exists row rows, file = Some (row :: rows).

(** * Properties *)

(** ** Array primitives *)

Lemma skipn_head (s : nat) (arr : list value) :
  s < length arr -> exists m, skipn s arr = m :: skipn (S s) arr.
Proof.
  revert arr; induction s as [|s IH]; intros [|x arr] Hlt; cbn in Hlt; try lia.
  - now exists x.
  - destruct (IH arr) as [m Hm]; [lia|]. now exists m.
Qed.

(** Within the array, [splice(start, 1)] takes out exactly the element at
    the position it resolves [start] to. *)
Lemma splice_at (arr : list value) (s : nat) :
  s < length arr ->
  exists m,
    arr = firstn s arr ++ m :: skipn (S s) arr /\
    firstn 1 (skipn s arr) = [m] /\
    firstn s arr ++ skipn (s + 1) arr = firstn s arr ++ skipn (S s) arr.
Proof.
  intros Hlt. destruct (skipn_head arr Hlt) as [m Hm]. exists m.
  repeat split.
  - rewrite <- Hm. symmetry. apply firstn_skipn.
  - now rewrite Hm.
  - now rewrite Nat.add_1_r.
Qed.

(** The index the script computes, [Math.floor(...) - 1] for a draw [k]
    below the length, removes one element, whatever the draw. *)
Lemma splice_draw (arr : list value) (k : nat) :
  k < length arr ->
  exists pre m post,
    arr = pre ++ m :: post /\
    splice arr (Z.of_nat k - 1) 1 = ([m], pre ++ post).
Proof.
  intros Hlt. unfold splice.
  set (len := Z.of_nat (length arr)).
  set (actualStart := if (Z.of_nat k - 1 <? 0)%Z then Z.max (len + (Z.of_nat k - 1)) 0
                      else Z.min (Z.of_nat k - 1) len).
  assert (Hs : (0 <= actualStart < len)%Z).
  { unfold actualStart, len. destruct (Z.ltb_spec (Z.of_nat k - 1) 0); lia. }
  clearbody actualStart.
  assert (Hd : Z.to_nat (Z.min (Z.max 1 0) (len - actualStart)) = 1) by lia.
  rewrite Hd.
  destruct (@splice_at arr (Z.to_nat actualStart)) as (m & Harr & Hrem & Hrest);
    [unfold len in Hs; lia|].
  exists (firstn (Z.to_nat actualStart) arr), m, (skipn (S (Z.to_nat actualStart)) arr).
  split; [exact Harr|]. now rewrite Hrem, Hrest.
Qed.

(** On an empty array nothing is removed: the destructured member is
    [undefined]. *)
Lemma splice_empty (start deleteCount : Z) : splice [] start deleteCount = ([], []).
Proof.
  unfold splice. cbv zeta. rewrite !skipn_nil, !firstn_nil. reflexivity.
Qed.

Section Pairing.

Variable entropy : nat -> nat.

Lemma floor_random_lt (n len : nat) : 0 < len -> floor_random entropy n len < len.
Proof.
  destruct len as [|len]; [lia|]. intros _. cbn [floor_random].
  apply Nat.mod_upper_bound. lia.
Qed.

Lemma floor_random_zero (n : nat) : floor_random entropy n 0 = 0.
Proof. reflexivity. Qed.

(** A turn of the loop on a working list of at least two. *)
Lemma pair_step_two (st : state) (l : list value) (x : value) :
  peoples st = l ++ [x] -> l <> [] ->
  exists pre m post,
    l = pre ++ m :: post /\
    pair_step entropy st =
      {| peoples := pre ++ post;
         groups := groups st ++ [VObject (length (heap st))];
         heap := heap st ++ [[x; m]];
         calls := S (calls st) |}.
Proof.
  intros Hp Hne. unfold pair_step, pop. rewrite Hp, last_last, removelast_last.
  assert (Hlen : 0 < length l) by (destruct l; [congruence | cbn; lia]).
  destruct (@splice_draw l (floor_random entropy (calls st) (length l)))
    as (pre & m & post & Hl & Hsp); [now apply floor_random_lt|].
  exists pre, m, post. split; [exact Hl|]. now rewrite Hsp.
Qed.

(** A turn of the loop on a working list of one: no member is left. *)
Lemma pair_step_one (st : state) (x : value) :
  peoples st = [x] ->
  pair_step entropy st =
    {| peoples := [];
       groups := groups st ++ [VObject (length (heap st))];
       heap := heap st ++ [[x; VUndefined]];
       calls := S (calls st) |}.
Proof.
  intros Hp. unfold pair_step, pop. rewrite Hp. cbn [last removelast length].
  now rewrite floor_random_zero, splice_empty.
Qed.

Lemma pairing_done (st : state) : peoples st = [] -> pairing entropy st = st.
Proof.
  intros Hp. rewrite pairing_equation_1.
  destruct (lt_dec 0 (length (peoples st))) as [Hlt|Hge]; [|reflexivity].
  exfalso. pose proof Hlt as Hlt'. rewrite Hp in Hlt'. cbn in Hlt'. lia.
Qed.

Lemma pairing_turn (st : state) :
  peoples st <> [] -> pairing entropy st = pairing entropy (pair_step entropy st).
Proof.
  intros Hp. rewrite pairing_equation_1.
  destruct (lt_dec 0 (length (peoples st))) as [Hlt|Hge]; [reflexivity|].
  exfalso. destruct (peoples st); [congruence | cbn in Hge; lia].
Qed.

(** Induction along the turns of the loop. *)
Lemma pairing_rect (P : state -> state -> Prop) :
  (forall st, peoples st = [] -> P st st) ->
  (forall st, peoples st <> [] ->
     P (pair_step entropy st) (pairing entropy (pair_step entropy st)) ->
     P st (pairing entropy (pair_step entropy st))) ->
  forall st, P st (pairing entropy st).
Proof.
  intros Hdone Hturn st.
  remember (length (peoples st)) as n eqn:Hn.
  revert st Hn. induction n as [n IH] using lt_wf_ind. intros st Hn.
  destruct (peoples st) as [|p ps] eqn:Hp.
  - rewrite pairing_done by exact Hp. now apply Hdone.
  - assert (Hne : peoples st <> []) by (rewrite Hp; discriminate).
    rewrite pairing_turn by exact Hne. apply Hturn; [exact Hne|].
    apply (IH (length (peoples (pair_step entropy st)))); [|reflexivity].
    subst n. rewrite <- Hp. apply pair_step_shrinks. rewrite Hp. cbn. lia.
Qed.

(** The loop ends on its guard: the working list is exhausted. *)
Lemma pairing_exhausts (st : state) : peoples (pairing entropy st) = [].
Proof.
  apply (pairing_rect (fun _ st' => peoples st' = [])); auto.
Qed.

(** A second pass of the loop body finds nothing to do. *)
Lemma pairing_idempotent (st : state) :
  pairing entropy (pairing entropy st) = pairing entropy st.
Proof. apply pairing_done, pairing_exhausts. Qed.

End Pairing.

(** ** The shape of a candidate grouping *)

Lemma pairs_from_nil_inv (ps : list (list value)) : pairs_from [] ps -> ps = [].
Proof.
  inversion 1 as [| |pre m post x ps' _ Hl]; [reflexivity|].
  destruct pre; discriminate.
Qed.

Lemma pair_within_mono (l l' pair : list value) :
  (forall v, In v l -> In v l') -> pair_within l pair -> pair_within l' pair.
Proof.
  intros Hin (a & b & -> & Ha & Hb). exists a, b. auto.
Qed.

Lemma removed_member_perm (pre post : list value) (m x : value) :
  Permutation (x :: m :: pre ++ post) ((pre ++ m :: post) ++ [x]).
Proof.
  rewrite <- Permutation_cons_append. apply perm_skip, Permutation_middle.
Qed.

Lemma pairs_from_count (l : list value) (ps : list (list value)) :
  pairs_from l ps -> 2 * length ps = length l + length l mod 2.
Proof.
  induction 1 as [|x|pre m post x ps _ IH]; try reflexivity.
  cbn [length]. rewrite !length_app in *. cbn [length] in *.
  replace (length pre + S (length post) + 1) with (length pre + length post + 1 * 2) by lia.
  rewrite Nat.Div0.mod_add. lia.
Qed.

(** From an even working list: only full pairs, and together they are the
    working list. *)
Lemma pairs_from_even (l : list value) (ps : list (list value)) :
  pairs_from l ps -> Nat.even (length l) = true ->
  Forall (pair_within l) ps /\ Permutation (concat ps) l.
Proof.
  induction 1 as [|x|pre m post x ps _ IH]; intros Hev.
  - split; constructor.
  - discriminate.
  - assert (Hev' : Nat.even (length (pre ++ post)) = true).
    { rewrite !length_app in *. cbn [length] in Hev.
      replace (length pre + S (length post) + 1) with (S (S (length pre + length post))) in Hev by lia.
      exact Hev. }
    destruct (IH Hev') as [Hall Hperm]. split.
    + constructor.
      * exists x, m. split; [reflexivity|]. rewrite !in_app_iff; cbn; auto.
      * eapply Forall_impl; [|exact Hall]. intros pair.
        apply pair_within_mono. intros v.
        rewrite !in_app_iff; cbn; rewrite ?in_app_iff; tauto.
    + cbn [concat app]. rewrite Hperm. apply removed_member_perm.
Qed.

(** From an odd working list: full pairs, then the last participant with
    [undefined]. *)
Lemma pairs_from_odd (l : list value) (ps : list (list value)) :
  pairs_from l ps -> Nat.odd (length l) = true ->
  exists earlier x,
    ps = earlier ++ [[x; VUndefined]] /\
    Forall (pair_within l) earlier /\
    Permutation (concat earlier ++ [x]) l.
Proof.
  induction 1 as [|x|pre m post x ps _ IH]; intros Hodd.
  - discriminate.
  - exists [], x. repeat split; [constructor | apply Permutation_refl].
  - assert (Hodd' : Nat.odd (length (pre ++ post)) = true).
    { rewrite !length_app in *. cbn [length] in Hodd.
      replace (length pre + S (length post) + 1) with (S (S (length pre + length post))) in Hodd by lia.
      exact Hodd. }
    destruct (IH Hodd') as (earlier & y & -> & Hall & Hperm).
    exists ([x; m] :: earlier), y. repeat split.
    + constructor.
      * exists x, m. split; [reflexivity|]. rewrite !in_app_iff; cbn; auto.
      * eapply Forall_impl; [|exact Hall]. intros pair.
        apply pair_within_mono. intros v.
        rewrite !in_app_iff; cbn; rewrite ?in_app_iff; tauto.
    + cbn [concat app]. rewrite Hperm. apply removed_member_perm.
Qed.

Section Candidate.

Variable entropy : nat -> nat.

(** What a run of the inner loop adds to the state. *)
Lemma pairing_adds (st : state) :
  exists ps,
    pairs_from (peoples st) ps /\
    heap (pairing entropy st) = heap st ++ ps /\
    groups (pairing entropy st) =
      groups st ++ map VObject (seq (length (heap st)) (length ps)) /\
    calls (pairing entropy st) = calls st + length ps.
Proof.
  apply (pairing_rect entropy (fun st st' =>
    exists ps, pairs_from (peoples st) ps /\ heap st' = heap st ++ ps /\
      groups st' = groups st ++ map VObject (seq (length (heap st)) (length ps)) /\
      calls st' = calls st + length ps)); clear st.
  - intros st Hp. exists []. rewrite Hp, !app_nil_r. cbn.
    split; [constructor|]. repeat split. lia.
  - intros st Hne (ps & Hps & Hheap & Hgroups & Hcalls).
    destruct (exists_last Hne) as (l & x & Hl).
    destruct l as [|l0 l1].
    + rewrite (pair_step_one entropy st Hl) in *. cbn [peoples heap groups calls] in *.
      apply pairs_from_nil_inv in Hps. subst ps.
      exists [[x; VUndefined]]. rewrite Hl. cbn [app].
      split; [constructor|]. split; [now rewrite Hheap, app_nil_r|].
      split; [|rewrite Hcalls; cbn [length]; lia].
      rewrite Hgroups. cbn. now rewrite app_nil_r.
    + destruct (@pair_step_two entropy st (l0 :: l1) x Hl) as (pre & m & post & Hsplit & Hstep);
        [discriminate|].
      rewrite Hstep in *. cbn [peoples heap groups calls] in *.
      exists ([x; m] :: ps). rewrite Hl, Hsplit.
      split; [now constructor|]. split; [now rewrite Hheap, <- app_assoc|].
      split; [|rewrite Hcalls; cbn [length]; lia].
      rewrite Hgroups, <- app_assoc, length_app. cbn [length map seq app].
      now rewrite Nat.add_1_r.
Qed.

End Candidate.

(** ** The collision check *)

Lemma hasSameGroup_absent (group : list value) : hasSameGroup group None = false.
Proof. reflexivity. Qed.

(** [every] of an empty array is true whatever the callback. *)
Lemma hasSameGroup_nothing (oneGroup : list value) (others : list (list value)) :
  hasSameGroup [] (Some (oneGroup :: others)) = true.
Proof. reflexivity. Qed.

Lemma hasSameGroup_empty_brief (group : list value) : hasSameGroup group (Some []) = false.
Proof. reflexivity. Qed.

(** An array that is an element of no previous group makes [every]
    fail on each of them: a grouping that starts with such an array is
    never the same group. *)
Lemma hasSameGroup_unshared (ref : nat) (others : list value)
  (previous : list (list value)) :
  Forall (fun oneGroup => includes oneGroup (VObject ref) = false) previous ->
  hasSameGroup (VObject ref :: others) (Some previous) = false.
Proof.
  unfold hasSameGroup, some, every, Object_values.
  induction 1 as [|oneGroup previous Hone _ IH]; [reflexivity|].
  cbn [existsb forallb]. rewrite Hone. exact IH.
Qed.

(** No element read from a JSON file is an array the script has
    allocated. *)
Lemma includes_parsed (row : list jscalar) (ref : nat) :
  includes (map (fun j => match j with JNull => VNull | JString s => VString s end) row)
           (VObject ref) = false.
Proof.
  unfold includes. induction row as [|[|s] row IH]; cbn; auto.
Qed.

Lemma hasSameGroup_fresh_array (ref : nat) (others : list value)
  (file : option brief_file) :
  hasSameGroup (VObject ref :: others) (read_last_brief file) = false.
Proof.
  destruct file as [content|]; [|reflexivity].
  apply hasSameGroup_unshared, Forall_forall. intros oneGroup Hin.
  apply in_map_iff in Hin as (row & <- & _). apply includes_parsed.
Qed.

(** ** References and the arrays behind them *)

Lemma deref_fresh (hp1 hp2 : list (list value)) :
  map (array_of (hp1 ++ hp2)) (map VObject (seq (length hp1) (length hp2))) = hp2.
Proof.
  revert hp1. induction hp2 as [|row hp2 IH]; intros hp1; [reflexivity|].
  cbn [length seq map array_of]. f_equal.
  - now rewrite app_nth2, Nat.sub_diag by lia.
  - specialize (IH (hp1 ++ [row])).
    rewrite <- app_assoc, length_app, Nat.add_1_r in IH. exact IH.
Qed.

Lemma stringify_fresh (hp1 hp2 : list (list value)) :
  JSON_stringify (hp1 ++ hp2) (map VObject (seq (length hp1) (length hp2))) =
  traverse (traverse stringify_element) hp2.
Proof.
  unfold JSON_stringify.
  revert hp1. induction hp2 as [|row hp2 IH]; intros hp1; [reflexivity|].
  cbn [length seq map traverse].
  rewrite nth_error_app2, Nat.sub_diag by lia. cbn [nth_error].
  specialize (IH (hp1 ++ [row])).
  rewrite <- app_assoc, length_app, Nat.add_1_r in IH. cbn [app] in IH.
  now rewrite IH.
Qed.

Lemma stringify_rows (rows : list (list value)) :
  Forall (fun row => forallb (fun v => negb (is_object v)) row = true) rows ->
  traverse (traverse stringify_element) rows = Some (map (map json_of) rows).
Proof.
  induction 1 as [|row rows Hrow _ IH]; [reflexivity|].
  cbn [traverse map]. rewrite IH.
  assert (Hr : traverse stringify_element row = Some (map json_of row)).
  { clear -Hrow. induction row as [|v row IHr]; [reflexivity|].
    cbn [forallb] in Hrow. apply andb_true_iff in Hrow as [Hv Hrow].
    cbn [traverse map]. rewrite (IHr Hrow). now destruct v. }
  now rewrite Hr.
Qed.

Lemma pairs_from_scalars (l : list value) (ps : list (list value)) :
  pairs_from l ps ->
  forallb (fun v => negb (is_object v)) l = true ->
  Forall (fun row => forallb (fun v => negb (is_object v)) row = true) ps.
Proof.
  induction 1 as [|x|pre m post x ps _ IH]; intros Hl.
  - constructor.
  - constructor; [|constructor]. cbn in *. now rewrite andb_true_r in *.
  - rewrite !forallb_app in Hl. cbn [forallb] in Hl.
    rewrite !andb_true_iff in Hl. destruct Hl as [[Hpre [Hm Hpost]] [Hx _]].
    constructor.
    + cbn. now rewrite Hx, Hm.
    + apply IH. rewrite forallb_app. now rewrite Hpre, Hpost.
Qed.

Lemma students_scalars (students : list string) :
  forallb (fun v => negb (is_object v)) (map VString students) = true.
Proof. induction students; cbn; auto. Qed.

Lemma pairs_from_two (a b : value) (ps : list (list value)) :
  pairs_from [a; b] ps -> ps = [[b; a]].
Proof.
  inversion 1 as [| |pre m post x ps' Hps' Hl].
  change [a; b] with ([a] ++ [b]) in Hl. apply app_inj_tail in Hl as [Hl ->].
  destruct pre as [|p pre].
  - injection Hl as -> ->. cbn in Hps'. now rewrite (pairs_from_nil_inv Hps').
  - injection Hl as _ Hl. destruct pre; discriminate.
Qed.

Section Run.

Variable entropy : nat -> nat.

Lemma candidate_shape (students : list string) :
  exists ps,
    pairs_from (map VString students) ps /\
    candidate entropy students =
      {| peoples := []; groups := map VObject (seq 0 (length ps));
         heap := ps; calls := length ps |}.
Proof.
  unfold candidate.
  destruct (pairing_adds entropy (init students)) as (ps & Hps & Hheap & Hgroups & Hcalls).
  pose proof (pairing_exhausts entropy (init students)) as Hpeoples.
  exists ps. split; [exact Hps|].
  destruct (pairing entropy (init students)) as [p g h c]. cbn in *. now subst.
Qed.

Lemma candidate_pairs (students : list string) :
  pairs_of (candidate entropy students) = heap (candidate entropy students).
Proof.
  destruct (candidate_shape students) as (ps & _ & ->).
  unfold pairs_of. cbn [heap groups]. apply (deref_fresh [] ps).
Qed.

Lemma candidate_finish (students : list string) :
  finish (candidate entropy students) =
  Some {| written := map (map json_of) (pairs_of (candidate entropy students));
          printed := pairs_of (candidate entropy students) |}.
Proof.
  unfold finish. rewrite candidate_pairs.
  destruct (candidate_shape students) as (ps & Hps & ->).
  cbn [heap groups].
  pose proof (stringify_fresh [] ps) as Hs. cbn [app length] in Hs.
  rewrite Hs, stringify_rows; [reflexivity|].
  eapply pairs_from_scalars; [exact Hps | apply students_scalars].
Qed.

Lemma candidate_nonempty (students : list string) :
  students <> [] ->
  exists others, groups (candidate entropy students) = VObject 0 :: others.
Proof.
  intros Hne. destruct (candidate_shape students) as (ps & Hps & ->).
  cbn [groups]. destruct ps as [|pair ps].
  - inversion Hps as [Hnil| |]. destruct students; [congruence | discriminate].
  - cbn. eauto.
Qed.

(** The retry loop either leaves after its first pass or never. *)
Lemma retry_accepts (last_brief : brief) (st : state) (fuel : nat) :
  hasSameGroup (groups (pairing entropy st)) last_brief = false ->
  retry entropy (S fuel) last_brief st = Some (pairing entropy st).
Proof. intros H. cbn [retry]. now rewrite H. Qed.

Lemma retry_stuck (last_brief : brief) (st : state) (fuel : nat) :
  hasSameGroup (groups (pairing entropy st)) last_brief = true ->
  retry entropy fuel last_brief st = None.
Proof.
  revert st. induction fuel as [|fuel IH]; intros st H; [reflexivity|].
  cbn [retry]. rewrite H. apply IH. now rewrite pairing_idempotent.
Qed.

Lemma retry_result (last_brief : brief) (st st' : state) (fuel : nat) :
  retry entropy fuel last_brief st = Some st' ->
  st' = pairing entropy st /\ hasSameGroup (groups st') last_brief = false.
Proof.
  intros H.
  destruct (hasSameGroup (groups (pairing entropy st)) last_brief) eqn:E.
  - now rewrite retry_stuck in H.
  - destruct fuel as [|fuel]; [discriminate|].
    rewrite retry_accepts in H by exact E. injection H as <-. auto.
Qed.

Lemma main_single_pass (students : list string) (file : option brief_file)
  (fuel : nat) :
  students <> [] ->
  main entropy (S fuel) students file =
  Some {| written := map (map json_of) (pairs_of (candidate entropy students));
          printed := pairs_of (candidate entropy students) |}.
Proof.
  intros Hne. destruct (candidate_nonempty Hne) as (others & Hg).
  unfold main. rewrite retry_accepts.
  - apply candidate_finish.
  - fold (candidate entropy students). rewrite Hg. apply hasSameGroup_fresh_array.
Qed.

Lemma candidate_of_two (a b : string) :
  candidate entropy [a; b] =
  {| peoples := []; groups := [VObject 0];
     heap := [[VString b; VString a]]; calls := 1 |}.
Proof.
  destruct (candidate_shape [a; b]) as (ps & Hps & ->).
  cbn [map] in Hps. now rewrite (pairs_from_two Hps).
Qed.

End Run.

(** ** Membership and counting *)

Lemma sameValueZero_eq (x y : value) : sameValueZero x y = true <-> x = y.
Proof.
  destruct x, y; cbn; try (split; [discriminate | congruence]);
    try (split; reflexivity).
  - rewrite String.eqb_eq. split; congruence.
  - rewrite Nat.eqb_eq. split; congruence.
Qed.

Lemma includes_In (arr : list value) (x : value) : includes arr x = true <-> In x arr.
Proof.
  unfold includes. rewrite existsb_exists. split.
  - intros (e & He & Heq). apply sameValueZero_eq in Heq. now subst.
  - intros Hx. exists x. split; [exact Hx | now apply sameValueZero_eq].
Qed.

Lemma NoDup_app_disjoint (l l' : list value) (a : value) :
  NoDup (l ++ l') -> In a l -> ~ In a l'.
Proof.
  induction l as [|x l IH]; cbn; [tauto|].
  intros Hnd [->|Ha] Ha'.
  - inversion Hnd as [|? ? Hx _]. apply Hx, in_or_app. now right.
  - inversion Hnd. now apply IH.
Qed.

(** When no value occurs twice across the pairs, a value that occurs at
    all lies in exactly one pair. *)
Lemma one_pair_holds (ps : list (list value)) (x : value) :
  NoDup (concat ps) -> In x (concat ps) ->
  length (filter (fun pair => includes pair x) ps) = 1.
Proof.
  induction ps as [|pair ps IH]; cbn [concat filter]; intros Hnd Hx; [destruct Hx|].
  destruct (includes pair x) eqn:E.
  - apply includes_In in E. cbn [length]. f_equal.
    assert (Hnone : forall q, In q ps -> includes q x = false).
    { intros q Hq. destruct (includes q x) eqn:Eq; [|reflexivity].
      apply includes_In in Eq. exfalso.
      apply (@NoDup_app_disjoint _ _ x Hnd E). apply in_concat. eauto. }
    clear -Hnone. induction ps as [|q ps IHq]; [reflexivity|].
    cbn [filter]. rewrite (Hnone q) by now left.
    apply IHq. intros q' Hq'. apply Hnone. now right.
  - apply IH; [now apply NoDup_app_remove_l in Hnd|].
    apply in_app_or in Hx as [Hx|Hx]; [|exact Hx].
    apply includes_In in Hx. congruence.
Qed.

Lemma pair_within_students (students : list string) (pair : list value) :
  pair_within (map VString students) pair ->
  exists a b, pair = [VString a; VString b] /\ In a students /\ In b students.
Proof.
  intros (x & y & -> & Hx & Hy).
  apply in_map_iff in Hx as (a & <- & Ha). apply in_map_iff in Hy as (b & <- & Hb).
  eauto.
Qed.

(** ** The collision rule, pair by pair *)

(** Applied to one pair, as its documentation describes its first
    argument, [hasSameGroup] is the co-occurrence test of the collision
    rule. *)
Lemma collides_each_pair (new_pairs previous : list (list value)) :
  collides new_pairs previous =
  existsb (fun pair => hasSameGroup pair (Some previous)) new_pairs.
Proof. reflexivity. Qed.

Lemma collides_nothing (previous : list (list value)) : collides [] previous = false.
Proof. reflexivity. Qed.

(** Under the co-occurrence rule a grouping that starts with a full pair
    collides with what is read back from its own file. *)
Lemma collides_reread (a b : string) (others : list (list value)) :
  collides ([VString a; VString b] :: others)
           (JSON_parse (map (map json_of) ([VString a; VString b] :: others))) = true.
Proof.
  unfold collides, includes. cbn. now rewrite !String.eqb_refl, ?orb_true_r.
Qed.

Section Claims.

Variable entropy : nat -> nat.

(** C3. For a non-empty pool the candidate grouping is non-empty and
    [hasSameGroup] is false on it whatever the state file holds or
    whether it exists: the body of the do-while runs exactly once, and
    the first candidate is written and printed. *)
Theorem first_candidate_accepted (students : list string) (file : option brief_file) :
  students <> [] ->
  groups (candidate entropy students) <> [] /\
  hasSameGroup (groups (candidate entropy students)) (read_last_brief file) = false /\
  retry entropy 1 (read_last_brief file) (init students) =
    Some (candidate entropy students) /\
  forall fuel,
    main entropy (S fuel) students file =
    Some {| written := map (map json_of) (pairs_of (candidate entropy students));
            printed := pairs_of (candidate entropy students) |}.
Proof.
  intros Hne.
  destruct (candidate_nonempty entropy Hne) as (others & Hg).
  assert (Hfalse : hasSameGroup (groups (candidate entropy students))
                     (read_last_brief file) = false).
  { rewrite Hg. apply hasSameGroup_fresh_array. }
  split; [rewrite Hg; discriminate|]. split; [exact Hfalse|].
  split; [now apply retry_accepts|].
  intros fuel. now apply main_single_pass.
Qed.

(** C8. A missing state file gives [null]; against [null] the check is
    false for every grouping, so the first candidate is accepted after a
    single pass, for every pool. *)
Theorem missing_file_first_run (students : list string) :
  read_last_brief None = None /\
  (forall group, hasSameGroup group None = false) /\
  retry entropy 1 (read_last_brief None) (init students) =
    Some (candidate entropy students) /\
  main entropy 1 students None =
    Some {| written := map (map json_of) (pairs_of (candidate entropy students));
            printed := pairs_of (candidate entropy students) |}.
Proof.
  split; [reflexivity|]. split; [reflexivity|].
  split; [now apply retry_accepts|].
  unfold main. rewrite retry_accepts by reflexivity. apply candidate_finish.
Qed.

(** C9. With an empty pool and a non-empty previous grouping the script
    never ends: the candidate stays empty, [hasSameGroup] of the empty
    grouping is true against any non-empty previous grouping, a pass of
    the body leaves the state as it is, and after any number of passes
    the loop is still running. *)
Theorem empty_pool_never_ends (row : list jscalar) (rows : list (list jscalar)) :
  candidate entropy [] = init [] /\
  groups (candidate entropy []) = [] /\
  (forall oneGroup others, hasSameGroup [] (Some (oneGroup :: others)) = true) /\
  pairing entropy (candidate entropy []) = candidate entropy [] /\
  forall fuel,
    retry entropy fuel (read_last_brief (Some (row :: rows))) (init []) = None /\
    main entropy fuel [] (Some (row :: rows)) = None.
Proof.
  assert (Hc : candidate entropy [] = init []) by (apply pairing_done; reflexivity).
  split; [exact Hc|]. split; [now rewrite Hc|]. split; [reflexivity|].
  split; [apply pairing_idempotent|].
  intros fuel.
  assert (Hr : retry entropy fuel (read_last_brief (Some (row :: rows))) (init []) = None).
  { apply retry_stuck. fold (candidate entropy []). now rewrite Hc. }
  split; [exact Hr|]. unfold main. now rewrite Hr.
Qed.

(** C6. For an even-length pool of [n] distinct participants the
    candidate grouping has [n / 2] pairs, each of two participants of
    the pool, the pairs together are the pool, and every participant is
    in exactly one pair; a grouping the script returns is this
    candidate. *)
Theorem even_pool_partition (students : list string) :
  Nat.even (length students) = true ->
  NoDup students ->
  let pairs := pairs_of (candidate entropy students) in
  length pairs = length students / 2 /\
  Forall (fun pair => exists a b,
            pair = [VString a; VString b] /\ In a students /\ In b students) pairs /\
  Permutation (concat pairs) (map VString students) /\
  (forall p, In p students ->
     length (filter (fun pair => includes pair (VString p)) pairs) = 1) /\
  (forall fuel file out,
     main entropy fuel students file = Some out -> printed out = pairs).
Proof.
  intros Hev Hnd pairs. subst pairs. rewrite candidate_pairs.
  destruct (candidate_shape entropy students) as (ps & Hps & Hc).
  assert (Hheap : heap (candidate entropy students) = ps) by now rewrite Hc.
  rewrite Hheap.
  assert (Hev' : Nat.even (length (map VString students)) = true)
    by now rewrite length_map.
  destruct (pairs_from_even Hps Hev') as [Hall Hperm].
  split.
  { pose proof (pairs_from_count Hps) as Hcount. rewrite length_map in Hcount.
    apply Nat.even_spec in Hev as [k Hk]. rewrite Hk in *.
    replace (2 * k) with (0 + k * 2) in Hcount at 2 by lia.
    rewrite Nat.Div0.mod_add in Hcount. cbn in Hcount.
    replace (2 * k) with (k * 2) by lia. rewrite Nat.div_mul by lia. lia. }
  split.
  { eapply Forall_impl; [|exact Hall]. intros pair. apply pair_within_students. }
  split; [exact Hperm|]. split.
  { intros p Hp. apply one_pair_holds.
    - apply (Permutation_NoDup (Permutation_sym Hperm)).
      apply Finite.Injective_map_NoDup; [|exact Hnd]. intros a b; congruence.
    - apply (Permutation_in _ (Permutation_sym Hperm)). now apply in_map. }
  intros fuel file out Hmain. unfold main in Hmain.
  destruct (retry entropy fuel (read_last_brief file) (init students)) as [st|] eqn:Hr;
    [|discriminate].
  apply retry_result in Hr as [-> _]. fold (candidate entropy students) in Hmain.
  rewrite candidate_finish in Hmain. injection Hmain as <-.
  cbn [printed]. now rewrite candidate_pairs.
Qed.

(** C10. For an odd-length pool no error is raised: the script ends after
    one pass; the last pair it forms holds the one participant that is
    left and [undefined], because [splice] on the empty working list
    removes nothing; every earlier pair holds two participants. *)
Theorem odd_pool_last_pair (students : list string) :
  Nat.odd (length students) = true ->
  (forall start, splice [] start 1 = ([], [])) /\
  exists earlier p,
    pairs_of (candidate entropy students) = earlier ++ [[VString p; VUndefined]] /\
    In p students /\
    Forall (fun pair => exists a b,
              pair = [VString a; VString b] /\ In a students /\ In b students) earlier /\
    Permutation (concat earlier ++ [VString p]) (map VString students) /\
    forall file,
      main entropy 1 students file =
      Some {| written := map (map json_of) (earlier ++ [[VString p; VUndefined]]);
              printed := earlier ++ [[VString p; VUndefined]] |}.
Proof.
  intros Hodd. split; [intros start; apply splice_empty|].
  destruct (candidate_shape entropy students) as (ps & Hps & Hc).
  assert (Hodd' : Nat.odd (length (map VString students)) = true)
    by now rewrite length_map.
  destruct (pairs_from_odd Hps Hodd') as (earlier & x & Heq & Hall & Hperm).
  assert (Hx : In x (map VString students)).
  { apply (Permutation_in _ Hperm), in_or_app. right. now left. }
  apply in_map_iff in Hx as (p & <- & Hp).
  assert (Hpairs : pairs_of (candidate entropy students) =
                   earlier ++ [[VString p; VUndefined]]).
  { rewrite candidate_pairs, Hc. cbn [heap]. exact Heq. }
  exists earlier, p. split; [exact Hpairs|]. split; [exact Hp|].
  split.
  { eapply Forall_impl; [|exact Hall]. intros pair. apply pair_within_students. }
  split; [exact Hperm|].
  intros file.
  assert (Hne : students <> []) by (destruct students; [discriminate Hodd | discriminate]).
  now rewrite main_single_pass, Hpairs.
Qed.

End Claims.

(** ** Runs that show where the script leaves the specification *)

Open Scope string_scope.
Open Scope list_scope.

(** C1. Pool [A, B, C, D], previous grouping [[A, B], [C, D]], both draws
    of [Math.floor(Math.random() * len)] equal to 0: the script ends
    after one pass and writes and prints [[D, C], [B, A]], the previous
    grouping again, which collides with it. *)
Theorem previous_grouping_returned :
  let previous := [[JString "A"; JString "B"]; [JString "C"; JString "D"]] in
  main (fun _ => 0) 1 ["A"; "B"; "C"; "D"] (Some previous) =
    Some {| written := [[JString "D"; JString "C"]; [JString "B"; JString "A"]];
            printed := [[VString "D"; VString "C"]; [VString "B"; VString "A"]] |} /\
  collides [[VString "D"; VString "C"]; [VString "B"; VString "A"]]
           (JSON_parse previous) = true.
Proof. cbv zeta. split; vm_compute; reflexivity. Qed.

(** C2. On the grouping the script passes to it, [hasSameGroup] is not
    the co-occurrence rule: the candidate [[B, A]] has a pair whose two
    members are together in the previous pair [A, B], and [hasSameGroup]
    answers false, because the elements it looks up are the pair arrays
    themselves and not their members. *)
Theorem hasSameGroup_misses_repeated_pair :
  let st := candidate (fun _ => 0) ["A"; "B"] in
  let previous := [[VString "A"; VString "B"]] in
  groups st = [VObject 0] /\
  pairs_of st = [[VString "B"; VString "A"]] /\
  collides (pairs_of st) previous = true /\
  hasSameGroup (groups st) (Some previous) = false.
Proof. cbv zeta. repeat split; vm_compute; reflexivity. Qed.

(** C4. The retry loop gives no guarantee of a grouping free of
    collision, and does not run on for a pool of two.  For the pool
    [A, B] with previous grouping [[A, B]] the script ends after one
    pass, whatever the draws, with the colliding [[B, A]].  For the pool
    [A, B, C, D] with previous grouping [[A, D], [B, C]] a grouping free
    of collision exists (draws 0, 0 give [[D, C], [B, A]]), and with
    draws 1, 0 the script ends after one pass with [[D, A], [C, B]],
    which collides. *)
Theorem retry_ends_with_collision :
  (forall entropy fuel,
     main entropy (S fuel) ["A"; "B"] (Some [[JString "A"; JString "B"]]) =
       Some {| written := [[JString "B"; JString "A"]];
               printed := [[VString "B"; VString "A"]] |}) /\
  collides [[VString "B"; VString "A"]] (JSON_parse [[JString "A"; JString "B"]]) = true /\
  let previous := [[JString "A"; JString "D"]; [JString "B"; JString "C"]] in
  let draws := fun n => match n with 0 => 1 | _ => 0 end in
  printed_of (main (fun _ => 0) 1 ["A"; "B"; "C"; "D"] (Some previous)) =
    Some [[VString "D"; VString "C"]; [VString "B"; VString "A"]] /\
  collides [[VString "D"; VString "C"]; [VString "B"; VString "A"]]
           (JSON_parse previous) = false /\
  printed_of (main draws 1 ["A"; "B"; "C"; "D"] (Some previous)) =
    Some [[VString "D"; VString "A"]; [VString "C"; VString "B"]] /\
  collides [[VString "D"; VString "A"]; [VString "C"; VString "B"]]
           (JSON_parse previous) = true.
Proof.
  split.
  { intros entropy fuel. rewrite main_single_pass by discriminate.
    unfold pairs_of. now rewrite candidate_of_two. }
  cbv zeta. repeat split; vm_compute; reflexivity.
Qed.

(** C5. Nothing is discarded and nothing is reset.  For the pool [A, B]
    with previous grouping [[A, B]] the candidate collides, the loop
    returns it after its first pass, and a further pass of the loop body
    would find the working list still empty, not refilled from the pool,
    and leave the candidate in [groups]. *)
Theorem colliding_candidate_kept (entropy : nat -> nat) :
  let st := candidate entropy ["A"; "B"] in
  let file := [[JString "A"; JString "B"]] in
  collides (pairs_of st) (JSON_parse file) = true /\
  retry entropy 1 (read_last_brief (Some file)) (init ["A"; "B"]) = Some st /\
  pairing entropy st = st /\
  peoples st = [] /\
  peoples st <> peoples (init ["A"; "B"]) /\
  groups st = [VObject 0].
Proof.
  cbv zeta. rewrite candidate_of_two.
  split; [reflexivity|]. split.
  { rewrite retry_accepts; fold (candidate entropy ["A"; "B"]);
      now rewrite candidate_of_two. }
  split; [now apply pairing_done|]. split; [reflexivity|].
  split; [discriminate | reflexivity].
Qed.

(** C7. Read back, the state file never compares as the same grouping:
    [hasSameGroup] between the grouping of a finished run and the parsed
    content of the file it wrote is false.  For the pool [A, B] the file
    holds [[B, A]], which collides with the grouping under the
    co-occurrence rule. *)
Theorem reread_file_not_same (entropy : nat -> nat) (fuel : nat)
  (students : list string) (file : option brief_file) :
  match main entropy fuel students file with
  | Some out =>
      hasSameGroup (groups (candidate entropy students))
                   (read_last_brief (Some (written out))) = false
  | None => True
  end /\
  main entropy 1 ["A"; "B"] None =
    Some {| written := [[JString "B"; JString "A"]];
            printed := [[VString "B"; VString "A"]] |} /\
  collides [[VString "B"; VString "A"]] (JSON_parse [[JString "B"; JString "A"]]) = true.
Proof.
  split.
  - destruct (main entropy fuel students file) as [out|] eqn:Hmain; [|exact I].
    destruct students as [|s students].
    + unfold main in Hmain.
      destruct (retry entropy fuel (read_last_brief file) (init [])) as [st|] eqn:Hr;
        [|discriminate].
      apply retry_result in Hr as [-> _]. fold (candidate entropy []) in Hmain.
      rewrite candidate_finish in Hmain. injection Hmain as <-.
      unfold candidate. now rewrite pairing_done.
    + destruct (@candidate_nonempty entropy (s :: students)) as (others & ->);
        [discriminate|].
      apply hasSameGroup_fresh_array.
  - split; [|reflexivity].
    rewrite main_single_pass by discriminate.
    unfold pairs_of. now rewrite candidate_of_two.
Qed.

(** ** Instances *)

Lemma first_candidate_accepted_witness :
  ["A"; "B"] <> [] /\
  main (fun _ => 0) 1 ["A"; "B"] (Some [[JString "A"; JString "B"]]) =
    Some {| written := [[JString "B"; JString "A"]];
            printed := [[VString "B"; VString "A"]] |}.
Proof.
  split; [discriminate|].
  destruct (@first_candidate_accepted (fun _ => 0) ["A"; "B"]
              (Some [[JString "A"; JString "B"]])) as (_ & _ & _ & H);
    [discriminate|].
  exact (H 0).
Defined.

Lemma even_pool_partition_witness :
  Nat.even (length ["A"; "B"; "C"; "D"]) = true /\
  NoDup ["A"; "B"; "C"; "D"] /\
  length (pairs_of (candidate (fun _ => 0) ["A"; "B"; "C"; "D"])) = 2 /\
  Permutation (concat (pairs_of (candidate (fun _ => 0) ["A"; "B"; "C"; "D"])))
              (map VString ["A"; "B"; "C"; "D"]).
Proof.
  assert (Hnd : NoDup ["A"; "B"; "C"; "D"]).
  { repeat constructor; cbn; intuition discriminate. }
  split; [reflexivity|]. split; [exact Hnd|].
  destruct (@even_pool_partition (fun _ => 0) ["A"; "B"; "C"; "D"] eq_refl Hnd)
    as (Hlen & _ & Hperm & _).
  split; [exact Hlen | exact Hperm].
Defined.

Lemma odd_pool_last_pair_witness :
  Nat.odd (length ["A"; "B"; "C"]) = true /\
  exists earlier p,
    pairs_of (candidate (fun _ => 0) ["A"; "B"; "C"]) =
      earlier ++ [[VString p; VUndefined]] /\
    In p ["A"; "B"; "C"].
Proof.
  split; [reflexivity|].
  destruct (@odd_pool_last_pair (fun _ => 0) ["A"; "B"; "C"] eq_refl)
    as (_ & earlier & p & Hpairs & Hp & _).
  exists earlier, p. split; [exact Hpairs | exact Hp].
Defined.

(** * Further properties of the script *)

(** ** The member the script's index picks, lines 31-32 *)

Lemma nth_middle_split (arr : list value) (pos : nat) (m : value) :
  arr = firstn pos arr ++ m :: skipn (S pos) arr -> pos < length arr ->
  nth pos arr VUndefined = m.
Proof.
  intros Harr Hlt. rewrite Harr at 1.
  rewrite app_nth2; rewrite length_firstn, Nat.min_l by lia; [|lia].
  now rewrite Nat.sub_diag.
Qed.

Lemma splice_position (arr : list value) (k : nat) :
  k < length arr ->
  let pos := member_position k (length arr) in
  pos < length arr /\
  splice arr (Z.of_nat k - 1) 1 =
    ([nth pos arr VUndefined], firstn pos arr ++ skipn (S pos) arr).
Proof.
  intros Hlt pos.
  assert (Hpos : pos < length arr) by (subst pos; destruct k; cbn; lia).
  split; [exact Hpos|].
  destruct (splice_at arr Hpos) as (m & Harr & Hrem & Hrest).
  rewrite (nth_middle_split _ Harr Hpos).
  unfold splice.
  set (len := Z.of_nat (length arr)).
  set (actualStart := if (Z.of_nat k - 1 <? 0)%Z then Z.max (len + (Z.of_nat k - 1)) 0
                      else Z.min (Z.of_nat k - 1) len).
  assert (Hs : Z.to_nat actualStart = pos).
  { unfold actualStart, len, pos.
    destruct (Z.ltb_spec (Z.of_nat k - 1) 0); destruct k; cbn [member_position]; lia. }
  assert (Hd : Z.to_nat (Z.min (Z.max 1 0) (len - actualStart)) = 1).
  { unfold len. lia. }
  now rewrite Hs, Hd, Hrem, Hrest.
Qed.

(** X1. On a working list of [len >= 1] participants, a draw [k < len]
    of [Math.floor(Math.random() * len)] makes [splice(k - 1, 1)] remove
    exactly the participant at position [len - 1] when [k] is 0 and at
    position [k - 1] otherwise, and leaves the others in their order. *)
Theorem splice_picks_member (arr : list value) (k : nat) :
  k < length arr ->
  let pos := member_position k (length arr) in
  pos < length arr /\
  splice arr (Z.of_nat k - 1) 1 =
    ([nth pos arr VUndefined], firstn pos arr ++ skipn (S pos) arr).
Proof. apply splice_position. Qed.

(** X2. No participant of the working list is out of reach of the
    index: for every position there is a draw below the length that
    makes [splice] remove the participant at that position. *)
Theorem every_member_can_be_picked (arr : list value) (pos : nat) :
  pos < length arr ->
  draw_for pos (length arr) < length arr /\
  splice arr (Z.of_nat (draw_for pos (length arr)) - 1) 1 =
    ([nth pos arr VUndefined], firstn pos arr ++ skipn (S pos) arr).
Proof.
  intros Hpos.
  assert (Hk : draw_for pos (length arr) < length arr).
  { unfold draw_for. destruct (Nat.eqb_spec pos (length arr - 1)); lia. }
  split; [exact Hk|].
  destruct (splice_position arr Hk) as [_ Hsp]. rewrite Hsp.
  assert (Hp : member_position (draw_for pos (length arr)) (length arr) = pos).
  { unfold draw_for. destruct (Nat.eqb_spec pos (length arr - 1)); cbn; lia. }
  now rewrite Hp.
Qed.

(** ** One turn of the pairing loop, lines 29-34 *)

Lemma pair_step_exact (entropy : nat -> nat) (st : state) (l : list value) (x : value) :
  peoples st = l ++ [x] -> l <> [] ->
  let pos := member_position (floor_random entropy (calls st) (length l)) (length l) in
  pos < length l /\
  pair_step entropy st =
    {| peoples := firstn pos l ++ skipn (S pos) l;
       groups := groups st ++ [VObject (length (heap st))];
       heap := heap st ++ [[x; nth pos l VUndefined]];
       calls := S (calls st) |}.
Proof.
  intros Hp Hne pos.
  assert (Hlen : 0 < length l) by (destruct l; [congruence | cbn; lia]).
  destruct (@splice_position l (floor_random entropy (calls st) (length l)))
    as [Hpos Hsp]; [now apply floor_random_lt|].
  split; [exact Hpos|].
  unfold pair_step, pop. rewrite Hp, last_last, removelast_last.
  now rewrite Hsp.
Qed.

(** X3. A turn of the loop on a working list of at least two takes the
    last participant as leader and one of the others as member, removes
    exactly these two, keeps the order of the rest, appends one new pair
    to [groups] and calls [Math.random] once. *)
Theorem turn_takes_two (entropy : nat -> nat) (st : state) (l : list value) (x : value) :
  peoples st = l ++ [x] -> l <> [] ->
  exists pos,
    pos < length l /\
    pair_step entropy st =
      {| peoples := firstn pos l ++ skipn (S pos) l;
         groups := groups st ++ [VObject (length (heap st))];
         heap := heap st ++ [[x; nth pos l VUndefined]];
         calls := S (calls st) |} /\
    length (peoples (pair_step entropy st)) + 2 = length (peoples st).
Proof.
  intros Hp Hne.
  destruct (@pair_step_exact entropy st l x Hp Hne) as [Hpos Hstep].
  eexists. split; [exact Hpos|]. split; [exact Hstep|].
  rewrite Hstep, Hp. cbn [peoples].
  rewrite !length_app, length_firstn, length_skipn. cbn [length]. lia.
Qed.

(** ** The candidate grouping for any pool *)

Lemma pairs_from_holds (l : list value) (ps : list (list value)) :
  pairs_from l ps ->
  Permutation (concat ps)
    (l ++ if Nat.odd (length l) then [VUndefined] else []).
Proof.
  induction 1 as [|x|pre m post x ps _ IH].
  - constructor.
  - apply Permutation_refl.
  - assert (Hpar : Nat.odd (length ((pre ++ m :: post) ++ [x])) =
                   Nat.odd (length (pre ++ post))).
    { rewrite !length_app. cbn [length].
      now replace (length pre + S (length post) + 1)
        with (S (S (length pre + length post))) by lia. }
    rewrite Hpar. cbn [concat app]. rewrite IH.
    change (x :: m :: (pre ++ post) ++ (if Nat.odd (length (pre ++ post)) then [VUndefined] else []))
      with ((x :: m :: pre ++ post) ++ (if Nat.odd (length (pre ++ post)) then [VUndefined] else [])).
    apply Permutation_app_tail, removed_member_perm.
Qed.

Lemma pairs_from_half (l : list value) (ps : list (list value)) :
  pairs_from l ps -> length ps = (length l + 1) / 2.
Proof.
  intros Hps. pose proof (pairs_from_count Hps) as Hc.
  pose proof (Nat.div_mod_eq (length l + 1) 2) as Hd.
  pose proof (Nat.mod_upper_bound (length l + 1) 2) as Hm1.
  pose proof (Nat.mod_upper_bound (length l) 2) as Hm2.
  pose proof (Nat.div_mod_eq (length l) 2) as Hd2.
  assert (Hrel : (length l + 1) mod 2 = 1 - length l mod 2).
  { rewrite <- Nat.Div0.add_mod_idemp_l.
    destruct (length l mod 2) as [|[|r]] eqn:E; cbn; lia. }
  lia.
Qed.

(** X4. For every pool of [n] participants the candidate grouping has
    [(n + 1) / 2] groups, each a distinct freshly allocated array, and
    the script has called [Math.random] once per group. *)
Theorem groups_and_draws (entropy : nat -> nat) (students : list string) :
  length (pairs_of (candidate entropy students)) = (length students + 1) / 2 /\
  groups (candidate entropy students) =
    map VObject (seq 0 ((length students + 1) / 2)) /\
  NoDup (groups (candidate entropy students)) /\
  calls (candidate entropy students) = (length students + 1) / 2.
Proof.
  rewrite candidate_pairs.
  destruct (candidate_shape entropy students) as (ps & Hps & ->).
  cbn [heap groups calls].
  pose proof (pairs_from_half Hps) as Hhalf. rewrite length_map in Hhalf.
  rewrite Hhalf. repeat split.
  apply Finite.Injective_map_NoDup; [intros a b; congruence | apply seq_NoDup].
Qed.

(** X5. For every pool, with repeated names or not, of even or odd
    length, the pairs of the candidate hold exactly the participants of
    the pool, each as often as the pool does, and one [undefined] more
    when the pool is odd. *)
Theorem pairs_hold_the_pool (entropy : nat -> nat) (students : list string) :
  Permutation (concat (pairs_of (candidate entropy students)))
    (map VString students ++
     if Nat.odd (length students) then [VUndefined] else []).
Proof.
  rewrite candidate_pairs.
  destruct (candidate_shape entropy students) as (ps & Hps & ->).
  cbn [heap]. pose proof (pairs_from_holds Hps) as H.
  now rewrite length_map in H.
Qed.

(** X6. The last name of [students.json] always leads the first group,
    whatever the draws. *)
Theorem last_student_leads (entropy : nat -> nat) (others : list string) (s : string) :
  exists member rest,
    pairs_of (candidate entropy (others ++ [s])) = [VString s; member] :: rest.
Proof.
  rewrite candidate_pairs.
  destruct (candidate_shape entropy (others ++ [s])) as (ps & Hps & ->).
  cbn [heap]. rewrite map_app in Hps. cbn [map] in Hps.
  inversion Hps as [Hnil|x Hx|pre m post x ps' _ Hl].
  - destruct (map VString others); discriminate.
  - destruct (map VString others) as [|? [|? ?]]; try discriminate.
    injection Hx as ->. eauto.
  - apply app_inj_tail in Hl as [_ ->]. eauto.
Qed.

(** ** What [hasSameGroup] decides, lines 13-24 *)

Lemma hasSameGroup_iff (group : list value) (previous : list (list value)) :
  hasSameGroup group (Some previous) = true <->
  exists oneGroup,
    In oneGroup previous /\ forall people, In people group -> In people oneGroup.
Proof.
  unfold hasSameGroup, some, every, Object_values. rewrite existsb_exists.
  split; intros (oneGroup & Hin & Hall); exists oneGroup; (split; [exact Hin|]).
  - intros people Hp. apply includes_In.
    rewrite forallb_forall in Hall. now apply Hall.
  - apply forallb_forall. intros people Hp. apply includes_In. now apply Hall.
Qed.

Lemma Forall2_pick (R : list value -> list value -> Prop)
  (l l' : list (list value)) (a : list value) :
  Forall2 R l l' -> In a l -> exists b, In b l' /\ R a b.
Proof.
  induction 1 as [|x y l l' Hxy _ IH]; cbn; [tauto|].
  intros [->|Ha]; [eauto|]. destruct (IH Ha) as (b & Hb & Hab). eauto.
Qed.

Lemma Forall2_pick_back (R : list value -> list value -> Prop)
  (l l' : list (list value)) (b : list value) :
  Forall2 R l l' -> In b l' -> exists a, In a l /\ R a b.
Proof.
  induction 1 as [|x y l l' Hxy _ IH]; cbn; [tauto|].
  intros [->|Hb]; [eauto|]. destruct (IH Hb) as (a & Ha & Hab). eauto.
Qed.

(** X7. Against a previous grouping, [hasSameGroup] answers true exactly
    when one previous group contains every element of its first
    argument. *)
Theorem hasSameGroup_decides (group : list value) (previous : list (list value)) :
  hasSameGroup group (Some previous) = true <->
  exists oneGroup,
    In oneGroup previous /\ forall people, In people group -> In people oneGroup.
Proof. apply hasSameGroup_iff. Qed.

(** X8. [hasSameGroup] reads its arguments as sets: the order and the
    repetition of the elements of the tested group, and of the members
    inside each previous group, do not change its answer. *)
Theorem hasSameGroup_order_blind (group group' : list value)
  (previous previous' : list (list value)) :
  same_members group group' ->
  Forall2 same_members previous previous' ->
  hasSameGroup group (Some previous) = hasSameGroup group' (Some previous').
Proof.
  intros Hg Hp. apply eq_true_iff_eq. rewrite !hasSameGroup_iff. split.
  - intros (a & Ha & Hall). destruct (Forall2_pick a Hp Ha) as (b & Hb & Hab).
    exists b. split; [exact Hb|]. intros x Hx. apply Hab, Hall, Hg, Hx.
  - intros (b & Hb & Hall). destruct (Forall2_pick_back b Hp Hb) as (a & Ha & Hab).
    exists a. split; [exact Ha|]. intros x Hx. apply Hab, Hall, Hg, Hx.
Qed.

(** X9. The order in which the previous groups are stored does not
    change the answer of [hasSameGroup]. *)
Theorem hasSameGroup_previous_order (group : list value)
  (previous previous' : list (list value)) :
  Permutation previous previous' ->
  hasSameGroup group (Some previous) = hasSameGroup group (Some previous').
Proof.
  intros Hp. apply eq_true_iff_eq. rewrite !hasSameGroup_iff.
  split; intros (a & Ha & Hall); exists a; (split; [|exact Hall]).
  - exact (Permutation_in _ Hp Ha).
  - exact (Permutation_in _ (Permutation_sym Hp) Ha).
Qed.

(** ** When the retry loop is left, lines 28-35 *)

Lemma candidate_empty (entropy : nat -> nat) : candidate entropy [] = init [].
Proof. apply pairing_done. reflexivity. Qed.

Lemma check_on_candidate (entropy : nat -> nat) (students : list string)
  (file : option brief_file) :
  hasSameGroup (groups (candidate entropy students)) (read_last_brief file) = true <->
  students = [] /\ holds_a_group file.
Proof.
  destruct students as [|s students].
  - rewrite candidate_empty. cbn [groups init].
    destruct file as [[|row rows]|]; cbn.
    + split; [discriminate|]. intros (_ & row & rows & H). discriminate.
    + split; [|reflexivity]. intros _. split; [reflexivity|]. now exists row, rows.
    + split; [discriminate|]. intros (_ & row & rows & H). discriminate.
  - destruct (@candidate_nonempty entropy (s :: students)) as (others & ->);
      [discriminate|].
    rewrite hasSameGroup_fresh_array. split; [discriminate|].
    intros [H _]. discriminate.
Qed.

(** X10. On the grouping the script passes to it, the check of the
    do-while is true in one case only: the pool is empty and the state
    file holds at least one group. *)
Theorem check_true_exactly (entropy : nat -> nat) (students : list string)
  (file : option brief_file) :
  hasSameGroup (groups (candidate entropy students)) (read_last_brief file) = true <->
  students = [] /\ holds_a_group file.
Proof. apply check_on_candidate. Qed.

(** X11. The script ends, for some number of passes, exactly when the
    pool is not empty or the state file is missing or holds no group. *)
Theorem script_ends_exactly (entropy : nat -> nat) (students : list string)
  (file : option brief_file) :
  (exists fuel out, main entropy fuel students file = Some out) <->
  ~ (students = [] /\ holds_a_group file).
Proof.
  split.
  - intros (fuel & out & Hmain) Hloop. apply check_on_candidate with (entropy := entropy) in Hloop.
    unfold main in Hmain. unfold candidate in Hloop.
    now rewrite (retry_stuck entropy _ _ fuel Hloop) in Hmain.
  - intros Hends. exists 1. unfold main. rewrite retry_accepts.
    + fold (candidate entropy students). rewrite candidate_finish. eauto.
    + fold (candidate entropy students).
      destruct (hasSameGroup (groups (candidate entropy students)) (read_last_brief file)) eqn:E;
        [|reflexivity].
      apply check_on_candidate in E. contradiction.
Qed.

Lemma main_result (entropy : nat -> nat) (fuel : nat) (students : list string)
  (file : option brief_file) (out : output) :
  main entropy fuel students file = Some out ->
  hasSameGroup (groups (candidate entropy students)) (read_last_brief file) = false /\
  out = {| written := map (map json_of) (pairs_of (candidate entropy students));
           printed := pairs_of (candidate entropy students) |}.
Proof.
  unfold main. intros Hmain.
  destruct (retry entropy fuel (read_last_brief file) (init students)) as [st|] eqn:Hr;
    [|discriminate].
  apply retry_result in Hr as [-> Hfalse]. fold (candidate entropy students) in *.
  rewrite candidate_finish in Hmain. injection Hmain as <-. auto.
Qed.

(** X12. A run that ends has ended after the first pass of the do-while:
    more passes never change the result. *)
Theorem ends_after_first_pass (entropy : nat -> nat) (fuel : nat)
  (students : list string) (file : option brief_file) (out : output) :
  main entropy fuel students file = Some out ->
  forall fuel', main entropy (S fuel') students file = Some out.
Proof.
  intros Hmain fuel'. destruct (main_result _ _ _ _ Hmain) as [Hfalse ->].
  unfold main. rewrite retry_accepts by exact Hfalse. apply candidate_finish.
Qed.

(** X13. The content of the state file has no influence on the grouping:
    two runs on the same pool with the same draws that both end give the
    same file and the same printed groups, whatever the two state files
    were. *)
Theorem result_ignores_state_file (entropy : nat -> nat) (fuel fuel' : nat)
  (students : list string) (file file' : option brief_file) (out out' : output) :
  main entropy fuel students file = Some out ->
  main entropy fuel' students file' = Some out' ->
  out = out'.
Proof.
  intros H H'. destruct (main_result _ _ _ _ H) as [_ ->].
  destruct (main_result _ _ _ _ H') as [_ ->]. reflexivity.
Qed.

(** ** The state file read back, lines 4 and 37 *)

Lemma reread_row (row : list value) :
  forallb (fun v => negb (is_object v)) row = true ->
  map (fun j => match j with JNull => VNull | JString s => VString s end)
      (map json_of row) = map undefined_as_null row.
Proof.
  induction row as [|v row IH]; [reflexivity|].
  cbn [forallb map]. intros H. apply andb_true_iff in H as [Hv Hrow].
  rewrite (IH Hrow). now destruct v.
Qed.

Lemma reread_rows (rows : list (list value)) :
  Forall (fun row => forallb (fun v => negb (is_object v)) row = true) rows ->
  JSON_parse (map (map json_of) rows) = map (map undefined_as_null) rows.
Proof.
  unfold JSON_parse. induction 1 as [|row rows Hrow _ IH]; [reflexivity|].
  cbn [map]. now rewrite (reread_row _ Hrow), IH.
Qed.

Lemma candidate_reread (entropy : nat -> nat) (students : list string) :
  JSON_parse (map (map json_of) (pairs_of (candidate entropy students))) =
  map (map undefined_as_null) (pairs_of (candidate entropy students)).
Proof.
  rewrite candidate_pairs.
  destruct (candidate_shape entropy students) as (ps & Hps & ->). cbn [heap].
  apply reread_rows. eapply pairs_from_scalars; [exact Hps | apply students_scalars].
Qed.

Lemma full_pairs_reread (l : list string) (ps : list (list value)) :
  Forall (pair_within (map VString l)) ps ->
  map (map undefined_as_null) ps = ps.
Proof.
  induction 1 as [|pair ps Hpair _ IH]; [reflexivity|].
  cbn [map]. rewrite IH.
  apply pair_within_students in Hpair as (a & b & -> & _). reflexivity.
Qed.

(** X14. For every run that ends, the file written holds the printed
    groups pair by pair, with [null] in place of [undefined]; parsed
    again it gives the printed groups with every [undefined] replaced by
    [null]. *)
Theorem file_holds_printed_groups (entropy : nat -> nat) (fuel : nat)
  (students : list string) (file : option brief_file) (out : output) :
  main entropy fuel students file = Some out ->
  written out = map (map json_of) (printed out) /\
  JSON_parse (written out) = map (map undefined_as_null) (printed out).
Proof.
  intros Hmain. destruct (main_result _ _ _ _ Hmain) as [_ ->].
  cbn [written printed]. split; [reflexivity | apply candidate_reread].
Qed.

(** X15. Reading the written file back gives exactly the printed groups
    if and only if the pool has an even number of participants. *)
Theorem reread_exact_iff_even (entropy : nat -> nat) (fuel : nat)
  (students : list string) (file : option brief_file) (out : output) :
  main entropy fuel students file = Some out ->
  JSON_parse (written out) = printed out <-> Nat.even (length students) = true.
Proof.
  intros Hmain. destruct (main_result _ _ _ _ Hmain) as [_ ->].
  cbn [written printed]. rewrite candidate_reread, candidate_pairs.
  destruct (candidate_shape entropy students) as (ps & Hps & ->). cbn [heap].
  destruct (Nat.even (length students)) eqn:Hev.
  - split; [reflexivity|]. intros _.
    assert (Hev' : Nat.even (length (map VString students)) = true)
      by now rewrite length_map.
    destruct (pairs_from_even Hps Hev') as [Hall _].
    now apply full_pairs_reread with (l := students).
  - split; [|discriminate]. intros Heq. exfalso.
    assert (Hodd : Nat.odd (length (map VString students)) = true).
    { rewrite length_map, <- Nat.negb_even. now rewrite Hev. }
    destruct (pairs_from_odd Hps Hodd) as (earlier & x & -> & _ & _).
    rewrite map_app in Heq. cbn [map undefined_as_null] in Heq.
    apply app_inj_tail in Heq as [_ Heq]. discriminate.
Qed.

(** ** The loop started from any state, lines 29-34 *)

(** X16. From any state, with pairs already in [groups] or not, the
    pairing loop exhausts the working list and only appends: the groups
    and pair arrays present before are kept as they were, and each new
    group is a new array. *)
Theorem loop_only_appends (entropy : nat -> nat) (st : state) :
  peoples (pairing entropy st) = [] /\
  exists ps,
    heap (pairing entropy st) = heap st ++ ps /\
    groups (pairing entropy st) =
      groups st ++ map VObject (seq (length (heap st)) (length ps)) /\
    (forall ref, ref < length (heap st) ->
       nth_error (heap (pairing entropy st)) ref = nth_error (heap st) ref).
Proof.
  split; [apply pairing_exhausts|].
  destruct (pairing_adds entropy st) as (ps & _ & Hheap & Hgroups & _).
  exists ps. split; [exact Hheap|]. split; [exact Hgroups|].
  intros ref Href. rewrite Hheap. now apply nth_error_app1.
Qed.

(** ** Which groupings the draws can produce *)

Lemma pair_step_ext (e e' : nat -> nat) (st : state) :
  e (calls st) = e' (calls st) -> pair_step e st = pair_step e' st.
Proof.
  intros H. unfold pair_step, floor_random. now rewrite H.
Qed.

Lemma pair_step_calls (e : nat -> nat) (st : state) :
  calls (pair_step e st) = S (calls st).
Proof.
  unfold pair_step. destruct (pop (peoples st)) as [leader peoples1].
  now destruct (splice _ _ _).
Qed.

Lemma pairing_ext (e e' : nat -> nat) (st : state) :
  (forall n, calls st <= n -> e n = e' n) -> pairing e st = pairing e' st.
Proof.
  remember (length (peoples st)) as n eqn:Hn.
  revert st Hn. induction n as [n IH] using lt_wf_ind. intros st Hn Hagree.
  destruct (peoples st) as [|p ps] eqn:Hp.
  - now rewrite !pairing_done.
  - assert (Hne : peoples st <> []) by (rewrite Hp; discriminate).
    rewrite (pairing_turn e st Hne), (pairing_turn e' st Hne).
    rewrite (pair_step_ext e e' st) by (apply Hagree; lia).
    apply (IH (length (peoples (pair_step e' st)))); [|reflexivity|].
    + subst n. rewrite <- Hp. apply pair_step_shrinks. rewrite Hp. cbn. lia.
    + intros k Hk. rewrite pair_step_calls in Hk. apply Hagree. lia.
Qed.

Lemma middle_parts (pre post : list value) (m : value) :
  firstn (length pre) (pre ++ m :: post) = pre /\
  skipn (S (length pre)) (pre ++ m :: post) = post /\
  nth (length pre) (pre ++ m :: post) VUndefined = m.
Proof.
  split; [|split].
  - now rewrite firstn_app, Nat.sub_diag, firstn_all, app_nil_r.
  - replace (S (length pre)) with (length (pre ++ [m])) by (rewrite length_app; cbn; lia).
    replace (pre ++ m :: post) with ((pre ++ [m]) ++ post) by now rewrite <- app_assoc.
    now rewrite skipn_app, Nat.sub_diag, skipn_all, app_nil_l.
  - now rewrite app_nth2, Nat.sub_diag by lia.
Qed.

Lemma pairs_from_reached (l : list value) (ps : list (list value)) :
  pairs_from l ps ->
  forall st, peoples st = l ->
  exists entropy, heap (pairing entropy st) = heap st ++ ps.
Proof.
  induction 1 as [|x|pre m post x ps _ IH]; intros st Hp.
  - exists (fun _ => 0). now rewrite pairing_done, app_nil_r.
  - exists (fun _ => 0).
    rewrite pairing_turn by (rewrite Hp; discriminate).
    rewrite (pair_step_one (fun _ => 0) st Hp). now rewrite pairing_done.
  - set (l := pre ++ m :: post) in *.
    set (st1 := {| peoples := pre ++ post;
                   groups := groups st ++ [VObject (length (heap st))];
                   heap := heap st ++ [[x; m]];
                   calls := S (calls st) |}).
    destruct (IH st1 eq_refl) as (e' & He').
    set (k := draw_for (length pre) (length l)).
    set (e := fun n => if Nat.eqb n (calls st) then k else e' n).
    assert (Hlen : length l = length pre + S (length post))
      by (unfold l; rewrite length_app; reflexivity).
    assert (Hk : k < length l).
    { unfold k, draw_for. destruct (Nat.eqb_spec (length pre) (length l - 1)); lia. }
    assert (Hdraw : floor_random e (calls st) (length l) = k).
    { unfold floor_random. destruct (length l) eqn:El; [lia|].
      unfold e. rewrite Nat.eqb_refl. apply Nat.mod_small. lia. }
    assert (Hpos : member_position k (length l) = length pre).
    { unfold k, draw_for. destruct (Nat.eqb_spec (length pre) (length l - 1)); cbn; lia. }
    assert (Hstep : pair_step e st = st1).
    { destruct (@pair_step_exact e st l x Hp) as [_ Hs];
        [unfold l; destruct pre; discriminate|].
      rewrite Hs, Hdraw, Hpos. unfold l.
      destruct (middle_parts pre post m) as (-> & -> & ->). reflexivity. }
    exists e.
    rewrite pairing_turn by (rewrite Hp; destruct l; discriminate).
    rewrite Hstep, (pairing_ext e e' st1).
    + rewrite He'. cbn [heap st1]. now rewrite <- app_assoc.
    + intros n Hn. cbn [calls st1] in Hn. unfold e.
      destruct (Nat.eqb_spec n (calls st)); [lia | reflexivity].
Qed.

(** X17. The groupings the script can produce from a pool are exactly
    those formed by taking, again and again, the last participant of the
    working list as leader and any one of the others as member: each of
    them is produced by some sequence of draws, and no other is. *)
Theorem reachable_groupings (students : list string) (ps : list (list value)) :
  (exists entropy, pairs_of (candidate entropy students) = ps) <->
  pairs_from (map VString students) ps.
Proof.
  split.
  - intros (entropy & <-). rewrite candidate_pairs.
    destruct (candidate_shape entropy students) as (ps' & Hps & ->). exact Hps.
  - intros Hps. destruct (pairs_from_reached Hps (init students) eq_refl) as (entropy & He).
    exists entropy. rewrite candidate_pairs. exact He.
Qed.

(** X18. On a working list without repeated names, two different draws
    remove two different participants: each participant is picked by
    exactly one value of the draw. *)
Theorem draws_pick_distinct_members (arr : list value) (k k' : nat) :
  NoDup arr -> k < length arr -> k' < length arr ->
  fst (splice arr (Z.of_nat k - 1) 1) = fst (splice arr (Z.of_nat k' - 1) 1) ->
  k = k'.
Proof.
  intros Hnd Hk Hk' Heq.
  destruct (splice_position arr Hk) as [Hpos Hsp].
  destruct (splice_position arr Hk') as [Hpos' Hsp'].
  rewrite Hsp, Hsp' in Heq. cbn [fst] in Heq. injection Heq as Heq.
  rewrite NoDup_nth in Hnd. apply (Hnd _ _ Hpos Hpos') in Heq.
  destruct k, k'; cbn [member_position] in Heq; lia.
Qed.

(** ** Instances of the further properties *)

Lemma splice_picks_member_witness :
  1 < length [VString "A"; VString "B"; VString "C"] /\
  splice [VString "A"; VString "B"; VString "C"] (Z.of_nat 1 - 1) 1 =
    ([VString "A"], [VString "B"; VString "C"]).
Proof.
  split; [cbn; lia|].
  apply (@splice_picks_member [VString "A"; VString "B"; VString "C"] 1). cbn; lia.
Defined.

Lemma every_member_can_be_picked_witness :
  2 < length [VString "A"; VString "B"; VString "C"] /\
  splice [VString "A"; VString "B"; VString "C"] (Z.of_nat 0 - 1) 1 =
    ([VString "C"], [VString "A"; VString "B"]).
Proof.
  split; [cbn; lia|].
  apply (@every_member_can_be_picked [VString "A"; VString "B"; VString "C"] 2). cbn; lia.
Defined.

Lemma turn_takes_two_witness :
  peoples (init ["A"; "B"; "C"]) = [VString "A"; VString "B"] ++ [VString "C"] /\
  [VString "A"; VString "B"] <> [] /\
  length (peoples (pair_step (fun _ => 0) (init ["A"; "B"; "C"]))) + 2 =
    length (peoples (init ["A"; "B"; "C"])).
Proof.
  split; [reflexivity|]. split; [discriminate|].
  destruct (@turn_takes_two (fun _ => 0) (init ["A"; "B"; "C"])
              [VString "A"; VString "B"] (VString "C") eq_refl)
    as (pos & _ & _ & Hlen); [discriminate|].
  exact Hlen.
Defined.

Lemma hasSameGroup_order_blind_witness :
  same_members [VString "A"; VString "B"] [VString "B"; VString "A"] /\
  Forall2 same_members [[VString "A"; VString "B"]] [[VString "B"; VString "A"]] /\
  hasSameGroup [VString "A"; VString "B"] (Some [[VString "A"; VString "B"]]) =
  hasSameGroup [VString "B"; VString "A"] (Some [[VString "B"; VString "A"]]).
Proof.
  assert (Hsame : same_members [VString "A"; VString "B"] [VString "B"; VString "A"]).
  { intros x. cbn. tauto. }
  assert (Hall : Forall2 same_members [[VString "A"; VString "B"]]
                                      [[VString "B"; VString "A"]]).
  { constructor; [exact Hsame | constructor]. }
  split; [exact Hsame|]. split; [exact Hall|].
  exact (hasSameGroup_order_blind Hsame Hall).
Defined.

Lemma hasSameGroup_previous_order_witness :
  Permutation [[VString "A"; VString "B"]; [VString "C"; VString "D"]]
              [[VString "C"; VString "D"]; [VString "A"; VString "B"]] /\
  hasSameGroup [VString "C"; VString "D"]
    (Some [[VString "A"; VString "B"]; [VString "C"; VString "D"]]) =
  hasSameGroup [VString "C"; VString "D"]
    (Some [[VString "C"; VString "D"]; [VString "A"; VString "B"]]).
Proof.
  assert (Hp : Permutation [[VString "A"; VString "B"]; [VString "C"; VString "D"]]
                           [[VString "C"; VString "D"]; [VString "A"; VString "B"]])
    by apply perm_swap.
  split; [exact Hp|].
  exact (hasSameGroup_previous_order [VString "C"; VString "D"] Hp).
Defined.

Lemma ends_after_first_pass_witness :
  main (fun _ => 0) 3 ["A"; "B"] None =
    Some {| written := [[JString "B"; JString "A"]];
            printed := [[VString "B"; VString "A"]] |} /\
  main (fun _ => 0) 1 ["A"; "B"] None =
    Some {| written := [[JString "B"; JString "A"]];
            printed := [[VString "B"; VString "A"]] |}.
Proof.
  assert (H : main (fun _ => 0) 3 ["A"; "B"] None =
              Some {| written := [[JString "B"; JString "A"]];
                      printed := [[VString "B"; VString "A"]] |})
    by (vm_compute; reflexivity).
  split; [exact H|].
  exact (ends_after_first_pass (fun _ => 0) 3 ["A"; "B"] None H 0).
Defined.

Lemma result_ignores_state_file_witness :
  main (fun _ => 0) 1 ["A"; "B"] None =
    Some {| written := [[JString "B"; JString "A"]];
            printed := [[VString "B"; VString "A"]] |} /\
  main (fun _ => 0) 1 ["A"; "B"] (Some [[JString "A"; JString "B"]]) =
    Some {| written := [[JString "B"; JString "A"]];
            printed := [[VString "B"; VString "A"]] |} /\
  {| written := [[JString "B"; JString "A"]];
     printed := [[VString "B"; VString "A"]] |} =
  {| written := [[JString "B"; JString "A"]];
     printed := [[VString "B"; VString "A"]] |}.
Proof.
  assert (H : main (fun _ => 0) 1 ["A"; "B"] None =
              Some {| written := [[JString "B"; JString "A"]];
                      printed := [[VString "B"; VString "A"]] |})
    by (vm_compute; reflexivity).
  assert (H' : main (fun _ => 0) 1 ["A"; "B"] (Some [[JString "A"; JString "B"]]) =
               Some {| written := [[JString "B"; JString "A"]];
                       printed := [[VString "B"; VString "A"]] |})
    by (vm_compute; reflexivity).
  split; [exact H|]. split; [exact H'|].
  exact (result_ignores_state_file (fun _ => 0) 1 1 ["A"; "B"] None
           (Some [[JString "A"; JString "B"]]) H H').
Defined.

Lemma file_holds_printed_groups_witness :
  main (fun _ => 0) 1 ["A"; "B"; "C"] None =
    Some {| written := [[JString "C"; JString "B"]; [JString "A"; JNull]];
            printed := [[VString "C"; VString "B"]; [VString "A"; VUndefined]] |} /\
  JSON_parse [[JString "C"; JString "B"]; [JString "A"; JNull]] =
    map (map undefined_as_null) [[VString "C"; VString "B"]; [VString "A"; VUndefined]].
Proof.
  assert (H : main (fun _ => 0) 1 ["A"; "B"; "C"] None =
              Some {| written := [[JString "C"; JString "B"]; [JString "A"; JNull]];
                      printed := [[VString "C"; VString "B"]; [VString "A"; VUndefined]] |})
    by (vm_compute; reflexivity).
  split; [exact H|].
  exact (proj2 (file_holds_printed_groups (fun _ => 0) 1 ["A"; "B"; "C"] None H)).
Defined.

Lemma reread_exact_iff_even_witness :
  main (fun _ => 0) 1 ["A"; "B"] None =
    Some {| written := [[JString "B"; JString "A"]];
            printed := [[VString "B"; VString "A"]] |} /\
  (JSON_parse [[JString "B"; JString "A"]] = [[VString "B"; VString "A"]] <->
   Nat.even (length ["A"; "B"]) = true).
Proof.
  assert (H : main (fun _ => 0) 1 ["A"; "B"] None =
              Some {| written := [[JString "B"; JString "A"]];
                      printed := [[VString "B"; VString "A"]] |})
    by (vm_compute; reflexivity).
  split; [exact H|].
  exact (reread_exact_iff_even (fun _ => 0) 1 ["A"; "B"] None H).
Defined.

Lemma draws_pick_distinct_members_witness :
  NoDup [VString "A"; VString "B"] /\
  1 < length [VString "A"; VString "B"] /\
  fst (splice [VString "A"; VString "B"] (Z.of_nat 1 - 1) 1) =
  fst (splice [VString "A"; VString "B"] (Z.of_nat 1 - 1) 1) /\
  1 = 1.
Proof.
  assert (Hnd : NoDup [VString "A"; VString "B"]).
  { repeat constructor; cbn; intuition discriminate. }
  split; [exact Hnd|]. split; [cbn; lia|]. split; [reflexivity|].
  apply (@draws_pick_distinct_members [VString "A"; VString "B"] 1 1 Hnd);
    [cbn; lia | cbn; lia | reflexivity].
Defined.
